(** * The in-memory item store of [src/node/app.js]

    A shallow embedding of the four CRUD route handlers registered on
    [/items] and [/items/:id], together with the properties of the store
    that the handlers maintain (or fail to maintain).

    Conventions of the embedding.
    - The module-level variable [items] is an array of objects; it is a
      [list Item].  The array owns the only reference to each object, so an
      object found by [Array.prototype.find] is denoted, for the rest of the
      handler, by its index in the array, and [item.name = v] is an in-place
      update of the list at that index.
    - JavaScript numbers that occur here are integers ([items.length + 1],
      the result of [parseInt]) or [NaN]; they are [Z] and [JsNumber].  The
      rounding of integers beyond 2^53 to doubles is outside the model, and
      so are strings with code units above 255.
    - A handler is a computation in a state-and-exception monad over the
      pair of the store and the response object [res] of the request.
    - [req.body] is the object produced by [express.json()]: a finite map
      from property names to JSON values; a missing property reads as
      [undefined].
    - The handlers of [GET /] and [GET /get-file], which do not use
      [items], are modelled in the module [Pages]. *)

From stdpp Require Import base option list strings gmap.
From stdpp Require Import pretty.
From Stdlib Require Import ZArith Ascii.

Local Set Warnings "-register-all".
Local Open Scope Z_scope.

(** ** JavaScript values *)

(** What [req.body.name] can be: any JSON value, or [undefined] when the
    property is missing. *)
Inductive Value : Type :=
  | JUndefined
  | JNull
  | JBool (b : bool)
  | JNum (n : Z)
  | JStr (s : string)
  | JArr (vs : list Value)
  | JObj (fields : list (string * Value)).

(** The result of [parseInt]: an integer or [NaN]. *)
Inductive JsNumber : Type :=
  | NaN
  | Num (n : Z).

(** [a === b] for a stored id [a] and a parsed number [b].  [NaN] is not
    strictly equal to anything. *)
Definition strict_eq (a : Z) (b : JsNumber) : bool :=
  match b with
  | NaN => false
  | Num n => a =? n
  end.

(** [a !== b]. *)
Definition strict_ne (a : Z) (b : JsNumber) : bool := negb (strict_eq a b).

(** ** [parseInt(string)] with the radix left undefined *)

Module ParseInt.

Definition code (c : ascii) : N := N_of_ascii c.

(** A string is a sequence of code units below 256.  The white space and
    line terminators of ECMAScript in that range: TAB, LF, VT, FF, CR, SP
    and NBSP. *)
Definition is_white_space (c : ascii) : bool :=
  let n := code c in
  ((9 <=? n) && (n <=? 13))%N || (n =? 32)%N || (n =? 160)%N.

Fixpoint trim_start (s : string) : string :=
  match s with
  | String c s' => if is_white_space c then trim_start s' else s
  | EmptyString => s
  end.

(** The value of [c] as a digit, when it is one in the given radix. *)
Definition digit_value (radix : Z) (c : ascii) : option Z :=
  let n := Z.of_N (code c) in
  let v :=
    if (48 <=? n) && (n <=? 57) then Some (n - 48)
    else if (97 <=? n) && (n <=? 122) then Some (n - 97 + 10)
    else if (65 <=? n) && (n <=? 90) then Some (n - 65 + 10)
    else None in
  match v with
  | Some d => if d <? radix then Some d else None
  | None => None
  end.

(** The longest prefix of digits, read as an integer; [acc] is [None]
    until a first digit has been read. *)
Fixpoint digits (radix : Z) (acc : option Z) (s : string) : option Z :=
  match s with
  | String c s' =>
      match digit_value radix c with
      | Some d => digits radix (Some (radix * default 0 acc + d)) s'
      | None => acc
      end
  | EmptyString => acc
  end.

(** An optional sign: the factor and the rest of the string. *)
Definition strip_sign (s : string) : Z * string :=
  match s with
  | String "-" s' => (-1, s')
  | String "+" s' => (1, s')
  | _ => (1, s)
  end.

(** A leading [0x] or [0X] selects radix 16. *)
Definition strip_prefix (s : string) : Z * string :=
  match s with
  | String "0" (String "x" s') => (16, s')
  | String "0" (String "X" s') => (16, s')
  | _ => (10, s)
  end.

Definition parseInt (input : string) : JsNumber :=
  let '(sign, s) := strip_sign (trim_start input) in
  let '(radix, s) := strip_prefix s in
  match digits radix None s with
  | None => NaN
  | Some n => Num (sign * n)
  end.

End ParseInt.

Import ParseInt.

(** ** Items, requests and responses *)

Record Item : Type := mkItem { id : Z; name : Value }.

(** [item.name = v] on an object. *)
Definition set_name (v : Value) (it : Item) : Item :=
  {| id := id it; name := v |}.

(** The part of a request the handlers read: [req.params.id] and
    [req.body]. *)
Record Request : Type := mkRequest {
  params_id : string;
  body : gmap string Value
}.

(** [req.body.name]. *)
Definition body_name (req : Request) : Value :=
  default JUndefined (body req !! "name"%string).

(** What is handed to [res.json]. *)
Inductive Json : Type :=
  | JsonUndefined
  | JsonItem (it : Item)
  | JsonItems (its : list Item).

(** The body of a response: nothing ([res.send()]), a text or a JSON
    document. *)
Inductive Payload : Type :=
  | Empty
  | Text (s : string)
  | JsonBody (j : Json).

(** The response object: its status code, and the body once the response
    has been sent. *)
Record Res : Type := mkRes {
  statusCode : Z;
  sent : option Payload
}.

(** A response as Express hands it to a handler. *)
Definition fresh_res : Res := {| statusCode := 200; sent := None |}.

Inductive JsError : Type :=
  | TypeError            (* a property of [undefined] was accessed *)
  | ErrHttpHeadersSent.  (* a second response was attempted *)

(** ** The handler monad *)

Record World : Type := mkWorld {
  items : list Item;
  res : Res
}.

Inductive Result (A : Type) : Type :=
  | Ok (a : A)
  | Throw (e : JsError).
Arguments Ok {A} a.
Arguments Throw {A} e.

Definition M (A : Type) : Type := World → Result A * World.

#[export] Instance M_ret : MRet M := λ A a w, (Ok a, w).

#[export] Instance M_bind : MBind M := λ A B k m w,
  match m w with
  | (Ok a, w') => k a w'
  | (Throw e, w') => (Throw e, w')
  end.

Definition throw {A} (e : JsError) : M A := λ w, (Throw e, w).

(** *** Primitive operations on the store *)

(** [items] read as a value. *)
Definition read_items : M (list Item) := λ w, (Ok (items w), w).

(** [items = l]. *)
Definition assign_items (l : list Item) : M unit :=
  λ w, (Ok tt, {| items := l; res := res w |}).

(** [items.length]. *)
Definition items_length : M Z :=
  l ← read_items; mret (Z.of_nat (length l)).

(** [items.push(it)]. *)
Definition items_push (it : Item) : M unit :=
  l ← read_items; assign_items (l ++ [it]).

(** A reference to an element of [items], or [undefined]. *)
Definition Ref : Type := option nat.

(** [items.find(p)]: the first element that satisfies [p]. *)
Definition items_find (p : Item → bool) : M Ref :=
  l ← read_items; mret (fst <$> list_find (λ i, p i) l).

(** [items.filter(p)]. *)
Definition items_filter (p : Item → bool) : M (list Item) :=
  l ← read_items; mret (filter (λ i, p i) l).

(** [!r]: objects are truthy, [undefined] is falsy. *)
Definition not_ref (r : Ref) : bool :=
  match r with
  | Some _ => false
  | None => true
  end.

(** [r.name = v]. *)
Definition assign_name (r : Ref) (v : Value) : M unit :=
  match r with
  | None => throw TypeError
  | Some k => l ← read_items; assign_items (alter (set_name v) k l)
  end.

(** The value of [r] as [res.json] serialises it. *)
Definition read_ref (r : Ref) : M Json :=
  match r with
  | None => mret JsonUndefined
  | Some k =>
      l ← read_items;
      mret (match l !! k with Some it => JsonItem it | None => JsonUndefined end)
  end.

(** *** Primitive operations on the response *)

(** [res.status(c)]. *)
Definition res_status (c : Z) : M unit :=
  λ w, (Ok tt, {| items := items w;
                  res := {| statusCode := c; sent := sent (res w) |} |}).

(** [res.send(p)]: a response can be sent once. *)
Definition res_send (p : Payload) : M unit :=
  λ w, match sent (res w) with
       | Some _ => (Throw ErrHttpHeadersSent, w)
       | None =>
           (Ok tt, {| items := items w;
                      res := {| statusCode := statusCode (res w);
                                sent := Some p |} |})
       end.

(** [res.json(j)]. *)
Definition res_json (j : Json) : M unit := res_send (JsonBody j).

(** ** The store and its four handlers *)

(** [let items = [{id: 1, name: 'Element'}]]. *)
Definition initial_items : list Item := [ {| id := 1; name := JStr "Element" |} ].

(** [app.get('/items', ...)]. *)
Definition get_items (req : Request) : M unit :=
  l ← read_items;
  res_json (JsonItems l).

(** [app.post('/items', ...)]. *)
Definition post_items (req : Request) : M unit :=
  n ← items_length;
  let newItem := {| id := n + 1; name := body_name req |} in
  items_push newItem;;
  res_status 201;;
  res_json (JsonItem newItem).

(** [app.put('/items/:id', ...)]. *)
Definition put_item (req : Request) : M unit :=
  item ← items_find (λ i, strict_eq (id i) (parseInt (params_id req)));
  (if not_ref item
   then res_status 404;; res_send (Text "Item not found")
   else mret tt);;
  assign_name item (body_name req);;
  j ← read_ref item;
  res_json j.

(** [app.delete('/items/:id', ...)]. *)
Definition delete_item (req : Request) : M unit :=
  l ← items_filter (λ i, strict_ne (id i) (parseInt (params_id req)));
  assign_items l;;
  res_status 204;;
  res_send Empty.

(** ** Running a handler on a request *)

(** What a request leaves behind: how the handler completed, the store,
    and the response object. *)
Record Outcome : Type := mkOutcome {
  completion : Result unit;
  store : list Item;
  response : Res
}.

Definition handle (h : Request → M unit) (req : Request) (l : list Item) : Outcome :=
  let '(r, w) := h req {| items := l; res := fresh_res |} in
  {| completion := r; store := items w; response := res w |}.

(** ** Sequences of requests *)

Inductive Route : Type :=
  | GET_items
  | POST_items
  | PUT_item
  | DELETE_item.

Definition handler (r : Route) : Request → M unit :=
  match r with
  | GET_items => get_items
  | POST_items => post_items
  | PUT_item => put_item
  | DELETE_item => delete_item
  end.

(** The store left by one request.  A handler that throws leaves the store
    as it was when it threw: Express catches the exception and the process
    goes on serving. *)
Definition step (l : list Item) (rq : Route * Request) : list Item :=
  store (handle (handler rq.1) rq.2 l).

(** The store left by a sequence of requests, served one after the other. *)
Definition run (trace : list (Route * Request)) (l : list Item) : list Item :=
  foldl step l trace.

(** The outcomes of a sequence of requests, in order. *)
Fixpoint outcomes (trace : list (Route * Request)) (l : list Item) : list Outcome :=
  match trace with
  | [] => []
  | rq :: trace' => handle (handler rq.1) rq.2 l :: outcomes trace' (step l rq)
  end.

(** The stores the server can be in. *)
Definition reachable (l : list Item) : Prop :=
  ∃ trace, l = run trace initial_items.

(** The requests of the specification's operations. *)
Definition List_ : Route * Request :=
  (GET_items, {| params_id := ""; body := ∅ |}).
Definition Create (v : Value) : Route * Request :=
  (POST_items, {| params_id := ""; body := {[ "name"%string := v ]} |}).
Definition Update (seg : string) (v : Value) : Route * Request :=
  (PUT_item, {| params_id := seg; body := {[ "name"%string := v ]} |}).
Definition Delete (seg : string) : Route * Request :=
  (DELETE_item, {| params_id := seg; body := ∅ |}).

(** Serving only [GET /items] requests. *)
Definition gets (reqs : list Request) : list (Route * Request) :=
  (λ r, (GET_items, r)) <$> reqs.

(** The stored ids are [1, 2, ..., N]. *)
Definition consecutive (l : list Item) : Prop :=
  id <$> l = seqZ 1 (Z.of_nat (length l)).

(** The two-item store of the specification's examples. *)
Definition items_AB : list Item :=
  [ {| id := 1; name := JStr "A" |}; {| id := 2; name := JStr "B" |} ].

#[export] Instance JsNumber_eq_dec : EqDecision JsNumber.
Proof. solve_decision. Defined.

(** Following the words of the specification, which speaks of numeric
    and non-numeric ids in the path: a numeric segment is the decimal
    notation of an integer, one or more decimal digits with an optional
    minus sign in front, and nothing else. *)
Definition is_decimal_digit (c : ascii) : bool :=
  ((48 <=? code c) && (code c <=? 57))%N.

Fixpoint all_digits (s : string) : bool :=
  match s with
  | String c s' => is_decimal_digit c && all_digits s'
  | EmptyString => true
  end.

Definition numeric_segment (s : string) : bool :=
  match s with
  | EmptyString => false
  | String "-" EmptyString => false
  | String "-" s' => all_digits s'
  | _ => all_digits s
  end.

#[export] Instance Route_eq_dec : EqDecision Route.
Proof. solve_decision. Defined.

(** The number of [POST /items] requests in a sequence of requests. *)
Definition count_posts (trace : list (Route * Request)) : nat :=
  length (filter (λ rq : Route * Request, rq.1 = POST_items) trace).

(** The item at position [k] (counted from 0) has an id of at least
    [k + 1]. *)
Definition lower_bounded (l : list Item) : Prop :=
  ∀ (k : nat) (it : Item), l !! k = Some it → Z.of_nat k + 1 ≤ id it.

(** ** The pages: [GET /] and [GET /get-file]

    These two handlers do not touch [items].  They set response headers,
    and [readFile] reads a file and writes to the console, so they run in
    a monad of their own, over the response object, the headers set so far
    and the console.  Headers are recorded as the handler sets them (the
    charset that Express may append on the wire is not modelled).  The
    file system is a function from paths to contents; [None] is a read
    that [fs.promises.readFile] rejects.  [readFile] is an [async]
    function: what is modelled is what has happened once its promise is
    settled, [Ok] for fulfilled and [Throw] for rejected. *)

Module Pages.

Record Page : Type := mkPage {
  page_res : Res;
  headers : list (string * string);
  console : list string
}.

(** The state a handler starts in. *)
Definition fresh_page : Page :=
  {| page_res := fresh_res; headers := []; console := [] |}.

Inductive PageError : Type :=
  | Js (e : JsError)
  | ReadError (path : string).  (* the rejection of [fs.readFile] *)

Inductive PageResult (A : Type) : Type :=
  | POk (a : A)
  | PThrow (e : PageError).
Arguments POk {A} a.
Arguments PThrow {A} e.

Definition P (A : Type) : Type := Page → PageResult A * Page.

#[export] Instance P_ret : MRet P := λ A a w, (POk a, w).

#[export] Instance P_bind : MBind P := λ A B k m w,
  match m w with
  | (POk a, w') => k a w'
  | (PThrow e, w') => (PThrow e, w')
  end.

(** [try { m } catch (error) { h error }]: what [m] did before it threw
    stays done. *)
Definition try_catch {A} (m : P A) (h : PageError → P A) : P A :=
  λ w, match m w with
       | (POk a, w') => (POk a, w')
       | (PThrow e, w') => h e w'
       end.

(** [res.set(k, v)] and [res.setHeader(k, v)]: not after the response has
    been sent. *)
Definition set_header (k v : string) : P unit :=
  λ w, match sent (page_res w) with
       | Some _ => (PThrow (Js ErrHttpHeadersSent), w)
       | None =>
           (POk tt, {| page_res := page_res w;
                       headers := headers w ++ [(k, v)];
                       console := console w |})
       end.

(** [res.status(c)]. *)
Definition status (c : Z) : P unit :=
  λ w, (POk tt, {| page_res := {| statusCode := c; sent := sent (page_res w) |};
                   headers := headers w;
                   console := console w |}).

(** [res.send(p)]: a response can be sent once. *)
Definition send (p : Payload) : P unit :=
  λ w, match sent (page_res w) with
       | Some _ => (PThrow (Js ErrHttpHeadersSent), w)
       | None =>
           (POk tt, {| page_res := {| statusCode := statusCode (page_res w);
                                      sent := Some p |};
                       headers := headers w;
                       console := console w |})
       end.

(** [console.error(msg, error)]: one more line on the console. *)
Definition console_error (msg : string) : P unit :=
  λ w, (POk tt, {| page_res := page_res w;
                   headers := headers w;
                   console := console w ++ [msg] |}).

(** [await fs.readFile(path, 'utf8')]. *)
Definition fs_readFile (fs : string → option string) (path : string) : P string :=
  λ w, match fs path with
       | Some data => (POk data, w)
       | None => (PThrow (ReadError path), w)
       end.

(** [app.get('/', ...)]. *)
Definition get_root : P unit :=
  set_header "Content-Type" "text/plain";;
  status 200;;
  send (Text "Hello World").

(** [async function readFile(filepath, res)]. *)
Definition readFile (fs : string → option string) (filepath : string) : P unit :=
  try_catch
    (data ← fs_readFile fs filepath;
     set_header "Content-Type" "text/html";;
     send (Text data))
    (λ error,
       console_error "Error reading file:";;
       status 500;;
       send (Text "Failed to load file")).

(** [app.get('/get-file', ...)]. *)
Definition get_file (fs : string → option string) : P unit :=
  readFile fs "./example.txt".

End Pages.

(** ** The handlers in closed form *)

Section Closed_forms.

Variable l : list Item.
Variable req : Request.

Lemma handle_get_items :
  handle get_items req l =
    {| completion := Ok tt; store := l;
       response := {| statusCode := 200;
                      sent := Some (JsonBody (JsonItems l)) |} |}.
Proof. reflexivity. Qed.

Lemma handle_post_items :
  let newItem := {| id := Z.of_nat (length l) + 1; name := body_name req |} in
  handle post_items req l =
    {| completion := Ok tt; store := l ++ [newItem];
       response := {| statusCode := 201;
                      sent := Some (JsonBody (JsonItem newItem)) |} |}.
Proof. reflexivity. Qed.

Lemma handle_delete_item :
  handle delete_item req l =
    {| completion := Ok tt;
       store := filter (λ i, strict_ne (id i) (parseInt (params_id req))) l;
       response := {| statusCode := 204; sent := Some Empty |} |}.
Proof. reflexivity. Qed.

(** No element matches: the 404 response is sent, and the assignment to
    [item.name] that follows throws. *)
Lemma handle_put_item_None :
  list_find (λ i, strict_eq (id i) (parseInt (params_id req))) l = None →
  handle put_item req l =
    {| completion := Throw TypeError; store := l;
       response := {| statusCode := 404;
                      sent := Some (Text "Item not found") |} |}.
Proof.
  intros Hfind. unfold handle, put_item, items_find, mbind, M_bind; simpl.
  rewrite Hfind. reflexivity.
Qed.

(** The element at index [k] is the first match: its name is overwritten
    and the object is sent back. *)
Lemma handle_put_item_Some k it :
  list_find (λ i, strict_eq (id i) (parseInt (params_id req))) l = Some (k, it) →
  handle put_item req l =
    {| completion := Ok tt;
       store := alter (set_name (body_name req)) k l;
       response := {| statusCode := 200;
                      sent := Some (JsonBody (JsonItem (set_name (body_name req) it))) |} |}.
Proof.
  intros Hfind. unfold handle, put_item, items_find, mbind, M_bind; simpl.
  rewrite Hfind; simpl.
  apply list_find_Some in Hfind as (Hk & _ & _).
  unfold res_json, res_send; simpl.
  rewrite list_lookup_alter_eq, Hk. reflexivity.
Qed.

End Closed_forms.

(** ** Facts about the comparisons and the list operations *)

Lemma strict_eq_Num a n : strict_eq a (Num n) = true ↔ a = n.
Proof. simpl. apply Z.eqb_eq. Qed.

Lemma strict_eq_NaN a : strict_eq a NaN = false.
Proof. reflexivity. Qed.

Lemma strict_eq_spec a b : strict_eq a b ↔ b = Num a.
Proof.
  destruct b as [|n]; simpl.
  - split; [intros [] | discriminate].
  - rewrite Is_true_true, Z.eqb_eq. split; [intros ->; reflexivity | congruence].
Qed.

Lemma strict_ne_spec a b : strict_ne a b ↔ b ≠ Num a.
Proof.
  unfold strict_ne. rewrite <- strict_eq_spec.
  destruct (strict_eq a b); simpl; intuition.
Qed.

(** [find] comes back with [undefined] exactly when no stored id is the
    parsed number. *)
Lemma find_None_iff (l : list Item) b :
  list_find (λ i, strict_eq (id i) b) l = None ↔ ∀ it, it ∈ l → b ≠ Num (id it).
Proof.
  rewrite list_find_None, Forall_forall.
  split; intros H it Hin; specialize (H it Hin); by rewrite strict_eq_spec in *.
Qed.

(** Filtering on [!==] keeps everything when no stored id is the parsed
    number. *)
Lemma filter_ne_absent (l : list Item) b :
  (∀ it, it ∈ l → b ≠ Num (id it)) →
  filter (λ i, strict_ne (id i) b) l = l.
Proof.
  induction l as [|x l IH]; intros Habs; [reflexivity|].
  rewrite filter_cons_True by (apply strict_ne_spec, Habs; left).
  f_equal. apply IH. intros it Hin. apply Habs. by right.
Qed.

Lemma filter_ne_idemp (l : list Item) b :
  filter (λ i, strict_ne (id i) b) (filter (λ i, strict_ne (id i) b) l)
  = filter (λ i, strict_ne (id i) b) l.
Proof.
  apply filter_ne_absent. intros it [Hne _]%list_elem_of_filter.
  by apply strict_ne_spec.
Qed.

(** The elements kept and the elements dropped by a filter add up. *)
Lemma filter_ne_length (l : list Item) b :
  (length (filter (λ i, strict_ne (id i) b) l)
   + length (filter (λ i, strict_eq (id i) b) l))%nat = length l.
Proof.
  induction l as [|x l IH]; [reflexivity|].
  rewrite !filter_cons. unfold strict_ne in *.
  destruct (strict_eq (id x) b); simpl in *; lia.
Qed.

Lemma set_name_id v it : id (set_name v it) = id it.
Proof. reflexivity. Qed.

Lemma alter_set_name_ids v k (l : list Item) :
  id <$> alter (set_name v) k l = id <$> l.
Proof.
  revert k; induction l as [|x l IH]; intros [|k]; simpl; try reflexivity.
  f_equal. apply IH.
Qed.

(** ** The seeded store and [GET /items] *)

(** C7.  Before any request the store holds exactly one item,
    [{id: 1, name: 'Element'}], and listing that store answers 200 with
    exactly that item and leaves the store as it is. *)
Theorem initial_items_seed (req : Request) :
  initial_items = [ {| id := 1; name := JStr "Element" |} ] ∧
  run [] initial_items = [ {| id := 1; name := JStr "Element" |} ] ∧
  handle get_items req initial_items =
    {| completion := Ok tt;
       store := [ {| id := 1; name := JStr "Element" |} ];
       response :=
         {| statusCode := 200;
            sent := Some (JsonBody (JsonItems [ {| id := 1; name := JStr "Element" |} ])) |} |}.
Proof. repeat split. Qed.

Lemma run_gets reqs l : run (gets reqs) l = l.
Proof. induction reqs as [|r reqs IH]; [reflexivity | exact IH]. Qed.

(** C8.  [GET /items] answers 200 with the whole sequence, in order and
    unmodified, and leaves the store as it was; after any number of
    consecutive [GET /items] requests the store is still the same, and
    every one of them got the same answer. *)
Theorem get_items_no_side_effect (l : list Item) (req : Request) (reqs : list Request) :
  handle get_items req l =
    {| completion := Ok tt; store := l;
       response := {| statusCode := 200;
                      sent := Some (JsonBody (JsonItems l)) |} |} ∧
  run (gets reqs) l = l ∧
  outcomes (gets reqs) l =
    replicate (length reqs)
      {| completion := Ok tt; store := l;
         response := {| statusCode := 200;
                        sent := Some (JsonBody (JsonItems l)) |} |}.
Proof.
  split; [reflexivity|]. split; [apply run_gets|].
  induction reqs as [|r reqs IH]; [reflexivity|].
  simpl. f_equal. exact IH.
Qed.

(** ** [POST /items] *)

(** C3.  On a store of [N] items, [POST /items] answers 201 with a new item
    whose id is [N + 1] and whose name is the one of the request, and
    leaves the store with that item appended: [N + 1] items, the new one
    last, the first [N] as they were; a [GET /items] that follows shows
    exactly that sequence. *)
Theorem post_items_appends (l : list Item) (req req' : Request) :
  ∃ newItem : Item,
    id newItem = Z.of_nat (length l) + 1 ∧
    name newItem = body_name req ∧
    completion (handle post_items req l) = Ok tt ∧
    response (handle post_items req l) =
      {| statusCode := 201; sent := Some (JsonBody (JsonItem newItem)) |} ∧
    store (handle post_items req l) = l ++ [newItem] ∧
    length (store (handle post_items req l)) = S (length l) ∧
    last (store (handle post_items req l)) = Some newItem ∧
    take (length l) (store (handle post_items req l)) = l ∧
    sent (response (handle get_items req' (store (handle post_items req l)))) =
      Some (JsonBody (JsonItems (l ++ [newItem]))).
Proof.
  exists {| id := Z.of_nat (length l) + 1; name := body_name req |}.
  rewrite handle_post_items; simpl.
  repeat split.
  - rewrite length_app; simpl; lia.
  - apply last_snoc.
  - by rewrite take_app_length.
Qed.

(** C9.  [POST /items] does not look at the name it is given.  Whatever
    value the body carries under [name] (a string or not) is stored as it
    is, and when the body has no [name] the item is stored with the name
    [undefined]; in both cases the answer is 201 and the item gets the id
    [N + 1]. *)
Theorem post_items_no_validation
    (l : list Item) (seg : string) (b : gmap string Value) (v : Value) :
  handle post_items {| params_id := seg; body := <["name"%string := v]> b |} l =
    {| completion := Ok tt;
       store := l ++ [ {| id := Z.of_nat (length l) + 1; name := v |} ];
       response :=
         {| statusCode := 201;
            sent := Some (JsonBody (JsonItem
                      {| id := Z.of_nat (length l) + 1; name := v |})) |} |} ∧
  handle post_items {| params_id := seg; body := delete "name"%string b |} l =
    {| completion := Ok tt;
       store := l ++ [ {| id := Z.of_nat (length l) + 1; name := JUndefined |} ];
       response :=
         {| statusCode := 201;
            sent := Some (JsonBody (JsonItem
                      {| id := Z.of_nat (length l) + 1; name := JUndefined |})) |} |}.
Proof.
  rewrite !handle_post_items. unfold body_name; simpl.
  by rewrite lookup_insert_eq, lookup_delete_eq.
Qed.

(** ** [DELETE /items/:id] *)

Lemma filter_strict_ne (l : list Item) b :
  filter (λ i, strict_ne (id i) b) l = filter (λ i, b ≠ Num (id i)) l.
Proof. apply list_filter_iff. intros it. apply strict_ne_spec. Qed.

Lemma filter_strict_eq (l : list Item) b :
  filter (λ i, strict_eq (id i) b) l = filter (λ i, b = Num (id i)) l.
Proof. apply list_filter_iff. intros it. apply strict_eq_spec. Qed.

(** C4.  [DELETE /items/:id] always answers 204 with an empty body.  The
    store it leaves is a subsequence of the old one (the items that stay
    keep their relative order), made of exactly the items whose id is not
    the requested one; the items dropped are as many as the items whose id
    is the requested one.  Deleting the same id again answers 204 again and
    changes nothing. *)
Theorem delete_item_removes_matching (l : list Item) (req : Request) :
  completion (handle delete_item req l) = Ok tt ∧
  response (handle delete_item req l) =
    {| statusCode := 204; sent := Some Empty |} ∧
  sublist (store (handle delete_item req l)) l ∧
  (∀ it, it ∈ store (handle delete_item req l) ↔
         it ∈ l ∧ parseInt (params_id req) ≠ Num (id it)) ∧
  (length (store (handle delete_item req l))
   + length (filter (λ it, parseInt (params_id req) = Num (id it)) l))%nat
  = length l ∧
  handle delete_item req (store (handle delete_item req l)) =
    {| completion := Ok tt;
       store := store (handle delete_item req l);
       response := {| statusCode := 204; sent := Some Empty |} |}.
Proof.
  rewrite !handle_delete_item; simpl.
  split; [reflexivity|]. split; [reflexivity|].
  split; [apply sublist_filter|].
  split; [|split].
  - intros it. rewrite list_elem_of_filter, strict_ne_spec. tauto.
  - rewrite <- filter_strict_eq. apply filter_ne_length.
  - by rewrite filter_ne_idemp.
Qed.

(** ** [PUT /items/:id] *)

(** An item with the requested id is stored: [find] returns the first. *)
Lemma find_present (l : list Item) n :
  (∃ it, it ∈ l ∧ id it = n) →
  ∃ k it, list_find (λ i, strict_eq (id i) (Num n)) l = Some (k, it).
Proof.
  intros (it & Hin & Hid).
  destruct (list_find_elem_of (λ i, strict_eq (id i) (Num n)) l it Hin)
    as [[k it'] Hfind].
  - apply strict_eq_spec. by rewrite Hid.
  - by exists k, it'.
Qed.

(** No item has the parsed number as its id: the handler answers 404 and
    then throws at the assignment to [item.name]; the store is untouched. *)
Lemma handle_put_item_absent (l : list Item) (req : Request) :
  (∀ it, it ∈ l → parseInt (params_id req) ≠ Num (id it)) →
  handle put_item req l =
    {| completion := Throw TypeError; store := l;
       response := {| statusCode := 404;
                      sent := Some (Text "Item not found") |} |}.
Proof. intros Habs. by apply handle_put_item_None, find_None_iff. Qed.

Lemma put_item_ids (l : list Item) (req : Request) :
  id <$> store (handle put_item req l) = id <$> l.
Proof.
  destruct (list_find (λ i, strict_eq (id i) (parseInt (params_id req))) l)
    as [[k it]|] eqn:Hfind.
  - rewrite (handle_put_item_Some _ _ _ _ Hfind); simpl.
    apply alter_set_name_ids.
  - by rewrite (handle_put_item_None _ _ Hfind).
Qed.

(** C5.  When an item with the requested id is stored, [PUT /items/:id]
    overwrites the name of the first such item and answers 200 with that
    item as updated.  The sequence keeps its length, every other position
    holds the item it held, and no id changes. *)
Theorem put_item_updates_first_match (l : list Item) (req : Request) (n : Z) :
  parseInt (params_id req) = Num n →
  (∃ it, it ∈ l ∧ id it = n) →
  ∃ (k : nat) (it : Item),
    l !! k = Some it ∧ id it = n ∧
    (∀ j it', l !! j = Some it' → id it' = n → (k ≤ j)%nat) ∧
    completion (handle put_item req l) = Ok tt ∧
    response (handle put_item req l) =
      {| statusCode := 200;
         sent := Some (JsonBody (JsonItem {| id := n; name := body_name req |})) |} ∧
    store (handle put_item req l) = <[k := {| id := n; name := body_name req |}]> l ∧
    length (store (handle put_item req l)) = length l ∧
    (∀ j, j ≠ k → store (handle put_item req l) !! j = l !! j) ∧
    id <$> store (handle put_item req l) = id <$> l.
Proof.
  intros Hparse Hpresent.
  destruct (find_present l n Hpresent) as (k & it & Hfind).
  rewrite <- Hparse in Hfind.
  pose proof (handle_put_item_Some l req k it Hfind) as Hput.
  apply list_find_Some in Hfind as (Hk & Hid & Hfirst).
  apply strict_eq_spec in Hid. rewrite Hparse in Hid.
  assert (id it = n) as Hn by congruence.
  assert (alter (set_name (body_name req)) k l
          = <[k := {| id := n; name := body_name req |}]> l) as Halter.
  { rewrite list_insert_alter. apply list_alter_ext; [|reflexivity].
    intros x Hx. rewrite Hk in Hx. injection Hx as <-.
    unfold set_name. by rewrite Hn. }
  exists k, it. rewrite Hput; simpl.
  split; [exact Hk|]. split; [exact Hn|]. split.
  { intros j it' Hj Hid'.
    destruct (decide (j < k)%nat) as [Hlt|]; [|lia].
    exfalso. apply (Hfirst j it' Hj Hlt).
    apply strict_eq_spec. by rewrite Hparse, Hid'. }
  split; [reflexivity|]. split.
  { unfold set_name. by rewrite Hn. }
  split; [exact Halter|]. split; [apply length_alter|]. split.
  - intros j Hj. by apply list_lookup_alter_ne.
  - apply alter_set_name_ids.
Qed.

(** P3 of the specification, as an instance. *)
Lemma put_item_updates_first_match_witness :
  ∃ (k : nat) (it : Item),
    items_AB !! k = Some it ∧ id it = 2 ∧
    (∀ j it', items_AB !! j = Some it' → id it' = 2 → (k ≤ j)%nat) ∧
    completion (handle put_item (Update "2" (JStr "C")).2 items_AB) = Ok tt ∧
    response (handle put_item (Update "2" (JStr "C")).2 items_AB) =
      {| statusCode := 200;
         sent := Some (JsonBody (JsonItem
                   {| id := 2; name := body_name (Update "2" (JStr "C")).2 |})) |} ∧
    store (handle put_item (Update "2" (JStr "C")).2 items_AB) =
      <[k := {| id := 2; name := body_name (Update "2" (JStr "C")).2 |}]> items_AB ∧
    length (store (handle put_item (Update "2" (JStr "C")).2 items_AB)) =
      length items_AB ∧
    (∀ j, j ≠ k →
       store (handle put_item (Update "2" (JStr "C")).2 items_AB) !! j =
       items_AB !! j) ∧
    id <$> store (handle put_item (Update "2" (JStr "C")).2 items_AB) =
      id <$> items_AB.
Proof.
  apply (put_item_updates_first_match items_AB (Update "2" (JStr "C")).2 2).
  - reflexivity.
  - exists {| id := 2; name := JStr "B" |}. split; [|reflexivity].
    right. left.
Defined.

(** ** Path segments that do not parse as an integer *)

(** A segment that starts with neither white space, a sign nor a decimal
    digit is not a number for [parseInt]. *)
Lemma parseInt_no_leading_digit (c : ascii) (s : string) :
  is_white_space c = false →
  c ≠ "-"%char → c ≠ "+"%char →
  digit_value 10 c = None →
  parseInt (String c s) = NaN.
Proof.
  intros Hws Hminus Hplus Hdigit.
  destruct c as [[] [] [] [] [] [] [] []];
    try reflexivity; try discriminate Hws; try discriminate Hdigit;
    congruence.
Qed.

(** [parseInt] reads the longest numeric prefix: a segment that starts
    with an integer is that integer, whatever follows. *)
Example parseInt_prefix :
  parseInt "12abc" = Num 12 ∧ parseInt "  -42" = Num (-42) ∧
  parseInt "0x1F" = Num 31 ∧ parseInt "1e3" = Num 1 ∧
  parseInt "abc" = NaN ∧ parseInt "0x" = NaN ∧ parseInt "-" = NaN.
Proof. repeat split. Qed.

(** The segment [1abc] is not a number, but [parseInt] reads the [1] at
    its front: on the seeded store [DELETE /items/1abc] removes the seed
    item and [PUT /items/1abc] renames it and answers 200.  So it is not
    the case that every non-numeric segment is treated as an absent id. *)
Lemma non_numeric_segment_hits_stored_id :
  numeric_segment "1abc" = false ∧
  parseInt "1abc" = Num 1 ∧
  handle delete_item (Delete "1abc").2 initial_items =
    {| completion := Ok tt; store := [];
       response := {| statusCode := 204; sent := Some Empty |} |} ∧
  handle put_item (Update "1abc" (JStr "X")).2 initial_items =
    {| completion := Ok tt;
       store := [ {| id := 1; name := JStr "X" |} ];
       response :=
         {| statusCode := 200;
            sent := Some (JsonBody (JsonItem {| id := 1; name := JStr "X" |})) |} |} ∧
  ¬ (∀ (l : list Item) (req : Request),
       numeric_segment (params_id req) = false →
       store (handle delete_item req l) = l ∧
       statusCode (response (handle put_item req l)) = 404).
Proof.
  do 4 (split; [reflexivity|]).
  intros Hclaim.
  destruct (Hclaim initial_items (Delete "1abc").2 eq_refl) as [Hdelete _].
  discriminate Hdelete.
Qed.

(** C6.  When [parseInt] finds no number at the front of the path segment
    (the result is [NaN]), [DELETE] answers 204 and leaves the store as it
    is, and [PUT] sends the 404 [Item not found] response and leaves the
    store as it is.  Both handlers do, on every store, exactly what they
    do for a numeric id that no stored item has: there is no separate
    error for such a segment.  (A segment that starts with a number, such
    as [1abc], is that number for the handlers.) *)
Theorem non_numeric_id_is_absent (l : list Item) (req : Request) :
  parseInt (params_id req) = NaN →
  handle delete_item req l =
    {| completion := Ok tt; store := l;
       response := {| statusCode := 204; sent := Some Empty |} |} ∧
  store (handle put_item req l) = l ∧
  response (handle put_item req l) =
    {| statusCode := 404; sent := Some (Text "Item not found") |} ∧
  (∀ (req' : Request) (n : Z),
     parseInt (params_id req') = Num n →
     (∀ it, it ∈ l → id it ≠ n) →
     handle delete_item req l = handle delete_item req' l ∧
     handle put_item req l = handle put_item req' l).
Proof.
  intros HNaN.
  assert (∀ it, it ∈ l → parseInt (params_id req) ≠ Num (id it)) as Habs.
  { intros it _. by rewrite HNaN. }
  rewrite handle_delete_item, (filter_ne_absent _ _ Habs).
  rewrite (handle_put_item_absent _ _ Habs); simpl.
  do 3 (split; [reflexivity|]).
  intros req' n Hparse Hnone.
  assert (∀ it, it ∈ l → parseInt (params_id req') ≠ Num (id it)) as Habs'.
  { intros it Hin. rewrite Hparse. intros [= ->]. by apply (Hnone it). }
  split.
  - by rewrite handle_delete_item, (filter_ne_absent _ _ Habs').
  - by rewrite (handle_put_item_absent _ _ Habs').
Qed.

(** The segment [abc] on the seeded store. *)
Lemma non_numeric_id_is_absent_witness :
  handle delete_item (Delete "abc").2 initial_items =
    {| completion := Ok tt; store := initial_items;
       response := {| statusCode := 204; sent := Some Empty |} |} ∧
  store (handle put_item (Delete "abc").2 initial_items) = initial_items ∧
  response (handle put_item (Delete "abc").2 initial_items) =
    {| statusCode := 404; sent := Some (Text "Item not found") |} ∧
  (∀ (req' : Request) (n : Z),
     parseInt (params_id req') = Num n →
     (∀ it, it ∈ initial_items → id it ≠ n) →
     handle delete_item (Delete "abc").2 initial_items
       = handle delete_item req' initial_items ∧
     handle put_item (Delete "abc").2 initial_items
       = handle put_item req' initial_items).
Proof.
  apply (non_numeric_id_is_absent initial_items (Delete "abc").2).
  reflexivity.
Defined.

(** ** Ids of stored items *)

(** C10.  No handler writes the id of a stored item.  [PUT] leaves the
    sequence of ids as it was, whether it found its target or not; [POST]
    leaves the items that were stored as they were, at the positions they
    had; what [DELETE] leaves is a subsequence of the items that were
    stored; [GET] leaves the store as it was. *)
Theorem handlers_preserve_ids (l : list Item) (req : Request) :
  id <$> store (handle put_item req l) = id <$> l ∧
  length (store (handle put_item req l)) = length l ∧
  take (length l) (store (handle post_items req l)) = l ∧
  sublist (store (handle delete_item req l)) l ∧
  store (handle get_items req l) = l.
Proof.
  split; [apply put_item_ids|]. split.
  { rewrite <- (length_fmap id), put_item_ids. apply length_fmap. }
  split.
  { rewrite handle_post_items; simpl. by rewrite take_app_length. }
  split; [|reflexivity].
  rewrite handle_delete_item; simpl. apply sublist_filter.
Qed.

(** ** Where the handlers go wrong *)

(** C1.  [PUT /items/99] on the store [[{id: 1, name: 'A'}]]: the 404
    response is sent and the store is untouched, but the handler does not
    stop there; it goes on to [item.name = ...] with [item] undefined and
    ends with a [TypeError]. *)
Theorem put_item_missing_id_falls_through :
  handle put_item (Update "99" (JStr "X")).2 [ {| id := 1; name := JStr "A" |} ] =
    {| completion := Throw TypeError;
       store := [ {| id := 1; name := JStr "A" |} ];
       response := {| statusCode := 404;
                      sent := Some (Text "Item not found") |} |} ∧
  completion (handle put_item (Update "99" (JStr "X")).2
                [ {| id := 1; name := JStr "A" |} ]) ≠ Ok tt.
Proof.
  split.
  - reflexivity.
  - discriminate.
Qed.

(** Ids are handed out as [items.length + 1]: as long as nothing is
    deleted, the stored ids stay [1, 2, ..., N]. *)
Lemma consecutive_step (l : list Item) (rq : Route * Request) :
  rq.1 ≠ DELETE_item → consecutive l → consecutive (step l rq).
Proof.
  destruct rq as [[] req]; unfold step, consecutive;
    cbn [fst snd handler]; intros Hr Hl.
  - exact Hl.
  - rewrite handle_post_items; simpl.
    rewrite fmap_app, length_app, Hl, Nat.add_1_r, seqZ_S; simpl.
    do 2 f_equal. lia.
  - rewrite put_item_ids, Hl. f_equal.
    rewrite <- (length_fmap id (store _)), put_item_ids. by rewrite length_fmap.
  - done.
Qed.

Lemma consecutive_run trace (l : list Item) :
  Forall (λ rq : Route * Request, rq.1 ≠ DELETE_item) trace →
  consecutive l → consecutive (run trace l).
Proof.
  intros Htrace. revert l.
  induction Htrace as [|rq trace Hrq _ IH]; intros l Hl; [exact Hl|].
  apply IH. by apply consecutive_step.
Qed.

(** Without [DELETE] the ids of the stored items are pairwise distinct. *)
Lemma ids_distinct_without_delete trace :
  Forall (λ rq : Route * Request, rq.1 ≠ DELETE_item) trace →
  NoDup (id <$> run trace initial_items).
Proof.
  intros Htrace.
  rewrite (consecutive_run trace initial_items Htrace) by reflexivity.
  apply NoDup_seqZ.
Qed.

(** C2.  Create, delete the seed item, create again: the store is
    reachable and holds two items with the id 2. *)
Theorem ids_collide_after_delete :
  reachable (run [Create (JStr "a"); Delete "1"; Create (JStr "b")] initial_items) ∧
  run [Create (JStr "a"); Delete "1"; Create (JStr "b")] initial_items =
    [ {| id := 2; name := JStr "a" |}; {| id := 2; name := JStr "b" |} ] ∧
  ¬ NoDup (id <$> run [Create (JStr "a"); Delete "1"; Create (JStr "b")] initial_items).
Proof.
  split; [by eexists|]. split; [reflexivity|].
  intros Hnd. apply NoDup_cons in Hnd as [Hnotin _].
  apply Hnotin. left.
Qed.

(** ** The scenarios of the specification, run on the handlers *)

Example P2_create :
  handle post_items (Create (JStr "X")).2 items_AB =
    {| completion := Ok tt;
       store := items_AB ++ [ {| id := 3; name := JStr "X" |} ];
       response :=
         {| statusCode := 201;
            sent := Some (JsonBody (JsonItem {| id := 3; name := JStr "X" |})) |} |}.
Proof. reflexivity. Qed.

Example P3_update :
  handle put_item (Update "2" (JStr "C")).2 items_AB =
    {| completion := Ok tt;
       store := [ {| id := 1; name := JStr "A" |}; {| id := 2; name := JStr "C" |} ];
       response :=
         {| statusCode := 200;
            sent := Some (JsonBody (JsonItem {| id := 2; name := JStr "C" |})) |} |}.
Proof. reflexivity. Qed.

Example P5_delete_twice :
  run [Delete "1"] items_AB = [ {| id := 2; name := JStr "B" |} ] ∧
  run [Delete "1"; Delete "1"] items_AB = [ {| id := 2; name := JStr "B" |} ] ∧
  statusCode ∘ response <$> outcomes [Delete "1"; Delete "1"] items_AB = [204; 204].
Proof. repeat split. Qed.

(** POST Pen, GET, PUT 2 Pencil, DELETE 1, GET, from the seeded store. *)
Example end_to_end :
  response <$> outcomes
    [Create (JStr "Pen"); List_; Update "2" (JStr "Pencil"); Delete "1"; List_]
    initial_items =
  [ {| statusCode := 201;
       sent := Some (JsonBody (JsonItem {| id := 2; name := JStr "Pen" |})) |};
    {| statusCode := 200;
       sent := Some (JsonBody (JsonItems
                 [ {| id := 1; name := JStr "Element" |};
                   {| id := 2; name := JStr "Pen" |} ])) |};
    {| statusCode := 200;
       sent := Some (JsonBody (JsonItem {| id := 2; name := JStr "Pencil" |})) |};
    {| statusCode := 204; sent := Some Empty |};
    {| statusCode := 200;
       sent := Some (JsonBody (JsonItems [ {| id := 2; name := JStr "Pencil" |} ])) |} ].
Proof. reflexivity. Qed.

(** ** How requests compose *)

(** The store that [PUT /items/:id] leaves, whether it finds its target or
    not. *)
Lemma put_item_store (l : list Item) (req : Request) :
  store (handle put_item req l) =
    match list_find (λ i, strict_eq (id i) (parseInt (params_id req))) l with
    | Some (k, _) => alter (set_name (body_name req)) k l
    | None => l
    end.
Proof.
  destruct (list_find _ l) as [[k it]|] eqn:Hfind.
  - by rewrite (handle_put_item_Some _ _ _ _ Hfind).
  - by rewrite (handle_put_item_None _ _ Hfind).
Qed.

(** [find] on ids sees the same thing in two stores that have the same
    sequence of ids. *)
Lemma find_same_ids (l1 l2 : list Item) b :
  id <$> l1 = id <$> l2 →
  fst <$> list_find (λ i, strict_eq (id i) b) l1
  = fst <$> list_find (λ i, strict_eq (id i) b) l2.
Proof.
  revert l2. induction l1 as [|x l1 IH]; intros [|y l2] Hids;
    try discriminate; [reflexivity|].
  injection Hids as Hxy Hids. simpl. rewrite Hxy.
  destruct (decide (strict_eq (id y) b)); [reflexivity|].
  specialize (IH l2 Hids).
  destruct (list_find _ l1) as [[]|], (list_find _ l2) as [[]|];
    simpl in *; congruence.
Qed.

(** Overwriting a name does not change what [find] on ids comes back
    with, up to the new name. *)
Lemma find_alter_Some (l : list Item) b v k j it :
  list_find (λ i, strict_eq (id i) b) l = Some (j, it) →
  list_find (λ i, strict_eq (id i) b) (alter (set_name v) k l)
  = Some (j, if decide (k = j) then set_name v it else it).
Proof.
  intros (Hj & Hit & Hfirst)%list_find_Some.
  apply list_find_Some. split; [|split].
  - rewrite list_lookup_alter. case_decide; subst; [by rewrite Hj | done].
  - by case_decide.
  - intros i y. rewrite list_lookup_alter. intros Hy Hlt.
    case_decide; subst.
    + destruct (l !! i) as [x|] eqn:Hx; [|discriminate].
      injection Hy as <-. by apply (Hfirst i x).
    + by apply (Hfirst i y).
Qed.

Lemma find_alter_None (l : list Item) b v k :
  list_find (λ i, strict_eq (id i) b) l = None →
  list_find (λ i, strict_eq (id i) b) (alter (set_name v) k l) = None.
Proof.
  intros Hnone.
  pose proof (find_same_ids (alter (set_name v) k l) l b
                (alter_set_name_ids v k l)) as Hsame.
  rewrite Hnone in Hsame.
  by destruct (list_find _ (alter _ _ _)).
Qed.

(** X1.  Two [PUT] requests on the same path segment, one after the other:
    the second one wins.  Its outcome (completion, response and store) is
    the one it would have had without the first; in particular a [PUT]
    repeated with the same body changes nothing the second time. *)
Theorem put_item_last_write_wins
    (l : list Item) (seg : string) (b1 b2 : gmap string Value) :
  handle put_item {| params_id := seg; body := b2 |}
    (store (handle put_item {| params_id := seg; body := b1 |} l))
  = handle put_item {| params_id := seg; body := b2 |} l.
Proof.
  destruct (list_find (λ i, strict_eq (id i) (parseInt seg)) l)
    as [[k it]|] eqn:Hfind.
  - rewrite (handle_put_item_Some l (mkRequest seg b1) k it Hfind).
    rewrite (handle_put_item_Some l (mkRequest seg b2) k it Hfind).
    cbn [store].
    pose proof (find_alter_Some l (parseInt seg)
                  (body_name (mkRequest seg b1)) k k it Hfind) as Hfind'.
    rewrite decide_True in Hfind' by reflexivity.
    rewrite (handle_put_item_Some _ (mkRequest seg b2) k _ Hfind').
    f_equal. rewrite list_alter_alter_eq. by apply list_alter_ext.
  - rewrite (handle_put_item_None l (mkRequest seg b1) Hfind). cbn [store].
    reflexivity.
Qed.

(** X2.  [PUT] requests for different ids do not interfere: served in
    either order they leave the same store. *)
Theorem put_item_commute (l : list Item) (req1 req2 : Request) :
  parseInt (params_id req1) ≠ parseInt (params_id req2) →
  store (handle put_item req2 (store (handle put_item req1 l)))
  = store (handle put_item req1 (store (handle put_item req2 l))).
Proof.
  intros Hne. rewrite !put_item_store.
  destruct (list_find (λ i, strict_eq (id i) (parseInt (params_id req1))) l)
    as [[k1 it1]|] eqn:H1;
  destruct (list_find (λ i, strict_eq (id i) (parseInt (params_id req2))) l)
    as [[k2 it2]|] eqn:H2.
  - rewrite (find_alter_Some _ _ (body_name req1) k1 _ _ H2).
    rewrite (find_alter_Some _ _ (body_name req2) k2 _ _ H1).
    apply list_alter_alter_ne.
    intros ->.
    apply list_find_Some in H1 as (Hk1 & Hid1 & _).
    apply list_find_Some in H2 as (Hk2 & Hid2 & _).
    rewrite Hk1 in Hk2. injection Hk2 as ->.
    apply strict_eq_spec in Hid1, Hid2. congruence.
  - rewrite (find_alter_None _ _ (body_name req1) k1 H2). by rewrite ?H1.
  - rewrite (find_alter_None _ _ (body_name req2) k2 H1). by rewrite ?H2.
  - by rewrite ?H1, ?H2.
Qed.

Lemma put_item_commute_witness :
  store (handle put_item (Update "2" (JStr "D")).2
           (store (handle put_item (Update "1" (JStr "C")).2 items_AB)))
  = store (handle put_item (Update "1" (JStr "C")).2
             (store (handle put_item (Update "2" (JStr "D")).2 items_AB))).
Proof.
  apply (put_item_commute items_AB
           (Update "1" (JStr "C")).2 (Update "2" (JStr "D")).2).
  vm_compute. discriminate.
Defined.

(** X3.  [DELETE] requests commute: two of them, served in either order,
    leave the same store. *)
Theorem delete_item_commute (l : list Item) (req1 req2 : Request) :
  store (handle delete_item req2 (store (handle delete_item req1 l)))
  = store (handle delete_item req1 (store (handle delete_item req2 l))).
Proof.
  rewrite !handle_delete_item; cbn [store].
  rewrite !list_filter_filter. apply list_filter_iff. intros it. tauto.
Qed.

(** X4.  After [DELETE /items/:id], a [PUT] on the same path segment finds
    nothing, on every store: it sends 404 [Item not found], leaves the
    store as the [DELETE] left it, and ends with the [TypeError]. *)
Theorem put_after_delete_not_found
    (l : list Item) (seg : string) (b1 b2 : gmap string Value) :
  handle put_item {| params_id := seg; body := b2 |}
    (store (handle delete_item {| params_id := seg; body := b1 |} l))
  = {| completion := Throw TypeError;
       store := store (handle delete_item {| params_id := seg; body := b1 |} l);
       response := {| statusCode := 404;
                      sent := Some (Text "Item not found") |} |}.
Proof.
  apply handle_put_item_absent.
  rewrite handle_delete_item; cbn [store params_id].
  intros it [Hne _]%list_elem_of_filter. by apply strict_ne_spec.
Qed.

(** X5.  Create then delete is a round trip when the new id is not in use:
    on a store of [N] items none of which has the id [N + 1], a [POST]
    followed by the [DELETE] of [N + 1] gives the store back as it was. *)
Theorem post_then_delete_restores (l : list Item) (req1 req2 : Request) :
  parseInt (params_id req2) = Num (Z.of_nat (length l) + 1) →
  (∀ it, it ∈ l → id it ≠ Z.of_nat (length l) + 1) →
  store (handle delete_item req2 (store (handle post_items req1 l))) = l.
Proof.
  intros Hparse Hfresh.
  rewrite handle_post_items, handle_delete_item; cbn [store].
  rewrite filter_app, filter_ne_absent.
  - rewrite filter_cons_False, filter_nil; [apply app_nil_r|].
    rewrite strict_ne_spec, Hparse. simpl. tauto.
  - intros it Hin. rewrite Hparse. intros [= Hid]. by apply (Hfresh it).
Qed.

Lemma post_then_delete_restores_witness :
  store (handle delete_item (Delete "2").2
           (store (handle post_items (Create (JStr "Pen")).2 initial_items)))
  = initial_items.
Proof.
  apply (post_then_delete_restores initial_items
           (Create (JStr "Pen")).2 (Delete "2").2).
  - reflexivity.
  - intros it Hin. apply list_elem_of_singleton in Hin as ->.
    vm_compute. discriminate.
Defined.

(** ** Which requests keep the ids distinct *)

Lemma ids_inj (l : list Item) (x y : Item) :
  NoDup (id <$> l) → x ∈ l → y ∈ l → id x = id y → x = y.
Proof.
  induction l as [|z l IH]; intros Hnd Hx Hy Hid; [by apply elem_of_nil in Hx|].
  rewrite fmap_cons in Hnd. apply NoDup_cons in Hnd as [Hz Hnd].
  apply elem_of_cons in Hx as [->|Hx], Hy as [->|Hy]; auto.
  - destruct Hz. rewrite Hid. by apply list_elem_of_fmap_2.
  - destruct Hz. rewrite <- Hid. by apply list_elem_of_fmap_2.
Qed.

Lemma filter_eq_absent (l : list Item) b :
  (∀ it, it ∈ l → b ≠ Num (id it)) →
  filter (λ i, strict_eq (id i) b) l = [].
Proof.
  induction l as [|x l IH]; intros Habs; [reflexivity|].
  rewrite filter_cons_False.
  - apply IH. intros it Hin. apply Habs. by right.
  - rewrite strict_eq_spec. apply Habs. by left.
Qed.

(** With distinct ids, the items that have a given item's id are that
    item alone. *)
Lemma filter_eq_singleton (l : list Item) (it : Item) :
  NoDup (id <$> l) → it ∈ l →
  filter (λ i, strict_eq (id i) (Num (id it))) l = [it].
Proof.
  induction l as [|z l IH]; intros Hnd Hin; [by apply elem_of_nil in Hin|].
  rewrite fmap_cons in Hnd. apply NoDup_cons in Hnd as [Hz Hnd].
  destruct (decide (strict_eq (id z) (Num (id it)))) as [Heq|Hne].
  - rewrite filter_cons_True by done.
    apply strict_eq_spec in Heq. injection Heq as Heq.
    assert (z = it) as ->.
    { apply elem_of_cons in Hin as [->|Hin]; [done|].
      destruct Hz. rewrite <- Heq. by apply list_elem_of_fmap_2. }
    f_equal. apply filter_eq_absent. intros y Hy [= Hyid].
    destruct Hz. rewrite Hyid. by apply list_elem_of_fmap_2.
  - rewrite filter_cons_False by done.
    apply IH; [done|].
    apply elem_of_cons in Hin as [->|Hin]; [|done].
    destruct Hne. by apply strict_eq_spec.
Qed.

(** X6.  [PUT] and [DELETE] never make two ids equal: on a store whose ids
    are pairwise distinct they leave a store whose ids are pairwise
    distinct. *)
Theorem put_delete_keep_ids_distinct (l : list Item) (req : Request) :
  NoDup (id <$> l) →
  NoDup (id <$> store (handle put_item req l)) ∧
  NoDup (id <$> store (handle delete_item req l)).
Proof.
  intros Hnd. split.
  - by rewrite put_item_ids.
  - apply (sublist_NoDup _ (id <$> l)); [done|].
    apply fmap_sublist. rewrite handle_delete_item. apply sublist_filter.
Qed.

Lemma put_delete_keep_ids_distinct_witness :
  NoDup (id <$> store (handle put_item (Update "2" (JStr "C")).2 items_AB)) ∧
  NoDup (id <$> store (handle delete_item (Update "2" (JStr "C")).2 items_AB)).
Proof.
  apply (put_delete_keep_ids_distinct items_AB (Update "2" (JStr "C")).2).
  refine (bool_decide_unpack _ _); vm_compute; exact I.
Defined.

(** X7.  [POST] is the only request that can make two ids equal, and it
    does so exactly when the id it hands out, [N + 1], is already in use:
    the ids after a [POST] are pairwise distinct if and only if they were
    before and no stored item has the id [N + 1]. *)
Theorem post_items_ids_distinct_iff (l : list Item) (req : Request) :
  NoDup (id <$> store (handle post_items req l)) ↔
  NoDup (id <$> l) ∧ ∀ it, it ∈ l → id it ≠ Z.of_nat (length l) + 1.
Proof.
  rewrite handle_post_items; cbn [store].
  rewrite fmap_app, NoDup_app. simpl. split.
  - intros (Hnd & Hdisj & _). split; [done|].
    intros it Hin Hid. apply (Hdisj (id it)).
    + by apply list_elem_of_fmap_2.
    + rewrite Hid. apply list_elem_of_singleton. reflexivity.
  - intros [Hnd Hfresh]. split; [done|]. split.
    + intros n (it & -> & Hin)%list_elem_of_fmap Hn.
      apply list_elem_of_singleton in Hn. by apply (Hfresh it).
    + apply NoDup_singleton.
Qed.

(** X8.  On a store whose ids are pairwise distinct, [DELETE] of the id of
    a stored item removes that item and nothing else: the store gets
    shorter by one, the item is gone, every other item stays. *)
Theorem delete_item_removes_one (l : list Item) (req : Request) (it : Item) :
  NoDup (id <$> l) →
  it ∈ l →
  parseInt (params_id req) = Num (id it) →
  (length (store (handle delete_item req l)) + 1)%nat = length l ∧
  (it ∉ store (handle delete_item req l)) ∧
  (∀ it', it' ∈ l → it' ≠ it → it' ∈ store (handle delete_item req l)).
Proof.
  intros Hnd Hin Hparse.
  rewrite handle_delete_item; cbn [store]. rewrite Hparse.
  split; [|split].
  - pose proof (filter_ne_length l (Num (id it))) as Hlen.
    rewrite (filter_eq_singleton l it Hnd Hin) in Hlen. exact Hlen.
  - intros [Hne _]%list_elem_of_filter. by apply strict_ne_spec in Hne.
  - intros it' Hin' Hneq. apply list_elem_of_filter. split; [|done].
    apply strict_ne_spec. intros [= Hid].
    apply Hneq. by apply (ids_inj l).
Qed.

Lemma delete_item_removes_one_witness :
  (length (store (handle delete_item (Delete "1").2 items_AB)) + 1)%nat
  = length items_AB ∧
  ({| id := 1; name := JStr "A" |}
     ∉ store (handle delete_item (Delete "1").2 items_AB)) ∧
  (∀ it', it' ∈ items_AB → it' ≠ {| id := 1; name := JStr "A" |} →
          it' ∈ store (handle delete_item (Delete "1").2 items_AB)).
Proof.
  apply (delete_item_removes_one items_AB (Delete "1").2
           {| id := 1; name := JStr "A" |}).
  - refine (bool_decide_unpack _ _); vm_compute; exact I.
  - left.
  - reflexivity.
Defined.

(** ** What holds of every store the server can reach *)

Lemma sublist_lookup_from {A} (l' l : list A) (k' : nat) (x : A) :
  sublist l' l → l' !! k' = Some x →
  ∃ k : nat, (k' ≤ k)%nat ∧ l !! k = Some x.
Proof.
  intros Hsub. revert k'.
  induction Hsub as [|y l1 l2 _ IH|y l1 l2 _ IH]; intros k' Hx.
  - discriminate.
  - destruct k' as [|k']; simpl in Hx.
    + exists 0%nat. by split.
    + destruct (IH k' Hx) as (k & Hle & Hk). exists (S k). split; [lia|done].
  - destruct (IH k' Hx) as (k & Hle & Hk). exists (S k). split; [lia|done].
Qed.

Lemma lower_bounded_step (l : list Item) (rq : Route * Request) :
  lower_bounded l → lower_bounded (step l rq).
Proof.
  destruct rq as [[] req]; unfold step, lower_bounded;
    cbn [fst snd handler]; intros Hl k it Hk.
  - by apply Hl.
  - rewrite handle_post_items in Hk; cbn [store] in Hk.
    apply lookup_app_Some in Hk as [Hk|[Hge Hk]]; [by apply Hl|].
    apply list_lookup_singleton_Some in Hk as [Hk <-]. simpl. lia.
  - assert ((id <$> store (handle put_item req l)) !! k = Some (id it)) as Hid.
    { by rewrite list_lookup_fmap, Hk. }
    rewrite put_item_ids, list_lookup_fmap in Hid.
    destruct (l !! k) as [it0|] eqn:Hk0; [|discriminate].
    injection Hid as <-. by apply Hl.
  - rewrite handle_delete_item in Hk; cbn [store] in Hk.
    destruct (sublist_lookup_from _ l k it (sublist_filter _ l) Hk)
      as (k0 & Hle & Hk0).
    specialize (Hl k0 it Hk0). lia.
Qed.

Lemma lower_bounded_run trace (l : list Item) :
  lower_bounded l → lower_bounded (run trace l).
Proof.
  revert l. induction trace as [|rq trace IH]; intros l Hl; [exact Hl|].
  apply IH. by apply lower_bounded_step.
Qed.

Lemma lower_bounded_initial : lower_bounded initial_items.
Proof. intros [|k] it [= <-]. simpl. lia. Qed.

(** X9.  Whatever requests have been served since startup, the item at
    position [k] of the store (counted from 0) has an id of at least
    [k + 1]; in particular every stored id is at least 1. *)
Theorem reachable_ids_lower_bound
    (trace : list (Route * Request)) (k : nat) (it : Item) :
  run trace initial_items !! k = Some it →
  Z.of_nat k + 1 ≤ id it ∧ 1 ≤ id it.
Proof.
  intros Hk.
  pose proof (lower_bounded_run trace _ lower_bounded_initial k it Hk).
  lia.
Qed.

Lemma reachable_ids_lower_bound_witness :
  Z.of_nat 1 + 1 ≤ id {| id := 2; name := JStr "b" |} ∧
  1 ≤ id {| id := 2; name := JStr "b" |}.
Proof.
  apply (reachable_ids_lower_bound
           [Create (JStr "a"); Delete "1"; Create (JStr "b")] 1).
  reflexivity.
Defined.

(** X10.  No stored id is ever zero or negative, so a [DELETE] or a [PUT]
    for such an id never finds anything, whatever requests came before:
    [DELETE] answers 204 and changes nothing, [PUT] sends the 404 and ends
    with the [TypeError]. *)
Theorem nonpositive_id_never_matches
    (trace : list (Route * Request)) (req : Request) (n : Z) :
  parseInt (params_id req) = Num n →
  n ≤ 0 →
  handle delete_item req (run trace initial_items) =
    {| completion := Ok tt; store := run trace initial_items;
       response := {| statusCode := 204; sent := Some Empty |} |} ∧
  handle put_item req (run trace initial_items) =
    {| completion := Throw TypeError; store := run trace initial_items;
       response := {| statusCode := 404;
                      sent := Some (Text "Item not found") |} |}.
Proof.
  intros Hparse Hn.
  assert (∀ it, it ∈ run trace initial_items →
                parseInt (params_id req) ≠ Num (id it)) as Habs.
  { intros it (k & Hk)%list_elem_of_lookup. rewrite Hparse. intros [= ->].
    pose proof (lower_bounded_run trace _ lower_bounded_initial k it Hk).
    lia. }
  split.
  - by rewrite handle_delete_item, (filter_ne_absent _ _ Habs).
  - by apply handle_put_item_absent.
Qed.

Lemma nonpositive_id_never_matches_witness :
  handle delete_item (Delete "0").2 (run [Create (JStr "a")] initial_items) =
    {| completion := Ok tt; store := run [Create (JStr "a")] initial_items;
       response := {| statusCode := 204; sent := Some Empty |} |} ∧
  handle put_item (Delete "0").2 (run [Create (JStr "a")] initial_items) =
    {| completion := Throw TypeError;
       store := run [Create (JStr "a")] initial_items;
       response := {| statusCode := 404;
                      sent := Some (Text "Item not found") |} |}.
Proof.
  apply (nonpositive_id_never_matches [Create (JStr "a")] (Delete "0").2 0).
  - reflexivity.
  - lia.
Defined.

Lemma count_posts_cons (rq : Route * Request) trace :
  count_posts (rq :: trace)
  = ((if decide (rq.1 = POST_items) then 1 else 0) + count_posts trace)%nat.
Proof.
  unfold count_posts. rewrite filter_cons. by case_decide.
Qed.

Lemma upper_bounded_run trace (l : list Item) (c : nat) :
  (length l ≤ c)%nat →
  (∀ it, it ∈ l → id it ≤ Z.of_nat c) →
  (length (run trace l) ≤ c + count_posts trace)%nat ∧
  (∀ it, it ∈ run trace l → id it ≤ Z.of_nat (c + count_posts trace)).
Proof.
  revert l c. induction trace as [|[r req] trace IH]; intros l c Hlen Hids.
  { unfold count_posts; simpl. rewrite Nat.add_0_r. by split. }
  rewrite count_posts_cons. cbn [fst].
  change (run ((r, req) :: trace) l) with (run trace (step l (r, req))).
  destruct r; unfold step; cbn [fst snd handler].
  - rewrite decide_False by discriminate. by apply IH.
  - rewrite decide_True by reflexivity.
    rewrite handle_post_items; cbn [store].
    replace (c + (1 + count_posts trace))%nat
      with (S c + count_posts trace)%nat by lia.
    apply IH.
    + rewrite length_app; simpl. lia.
    + intros it [Hin|Hin]%elem_of_app.
      * specialize (Hids it Hin). lia.
      * apply list_elem_of_singleton in Hin as ->. simpl. lia.
  - rewrite decide_False by discriminate. apply IH.
    + rewrite <- (length_fmap id), put_item_ids, length_fmap. exact Hlen.
    + intros it Hin.
      apply (list_elem_of_fmap_2 id) in Hin. rewrite put_item_ids in Hin.
      apply list_elem_of_fmap in Hin as (it0 & -> & Hin0). by apply Hids.
  - rewrite decide_False by discriminate. apply IH.
    + rewrite handle_delete_item; cbn [store].
      pose proof (length_filter
        (λ i, strict_ne (id i) (parseInt (params_id req))) l). lia.
    + rewrite handle_delete_item; cbn [store].
      intros it [_ Hin]%list_elem_of_filter. by apply Hids.
Qed.

(** X11.  Neither the number of stored items nor any stored id ever
    exceeds one plus the number of [POST /items] requests served since
    startup. *)
Theorem reachable_ids_upper_bound (trace : list (Route * Request)) :
  (length (run trace initial_items) ≤ 1 + count_posts trace)%nat ∧
  (∀ it, it ∈ run trace initial_items →
         id it ≤ 1 + Z.of_nat (count_posts trace)).
Proof.
  destruct (upper_bounded_run trace initial_items 1) as [Hlen Hids].
  - reflexivity.
  - intros it Hin. apply list_elem_of_singleton in Hin as ->. reflexivity.
  - split; [exact Hlen|].
    intros it Hin. specialize (Hids it Hin). lia.
Qed.

(** X12.  [GET /items] requests can be dropped from any sequence of
    requests without changing the store it leaves. *)
Theorem get_requests_do_not_matter
    (trace : list (Route * Request)) (l : list Item) :
  run (filter (λ rq : Route * Request, rq.1 ≠ GET_items) trace) l = run trace l.
Proof.
  revert l. induction trace as [|[r req] trace IH]; intros l; [reflexivity|].
  rewrite filter_cons. case_decide as Hr; cbn [fst] in Hr.
  - simpl. apply IH.
  - assert (r = GET_items) as -> by (by destruct r).
    exact (IH l).
Qed.

(** X13.  Every request to the four routes is answered exactly once, with
    200, 201, 204 or 404; no handler ever attempts a second response.  A
    handler returns normally, except [PUT] when it answers 404: then, and
    only then, it ends with a [TypeError]. *)
Theorem every_request_is_answered (r : Route) (req : Request) (l : list Item) :
  (∃ p, sent (response (handle (handler r) req l)) = Some p) ∧
  statusCode (response (handle (handler r) req l)) ∈ [200; 201; 204; 404] ∧
  completion (handle (handler r) req l) ≠ Throw ErrHttpHeadersSent ∧
  (completion (handle (handler r) req l) = Ok tt ∧
   statusCode (response (handle (handler r) req l)) ≠ 404
   ∨
   r = PUT_item ∧
   completion (handle (handler r) req l) = Throw TypeError ∧
   statusCode (response (handle (handler r) req l)) = 404).
Proof.
  destruct r; cbn [handler].
  - rewrite handle_get_items; simpl.
    split; [by eexists|]. split; [set_solver|]. split; [discriminate|].
    left. split; [reflexivity|lia].
  - rewrite handle_post_items; simpl.
    split; [by eexists|]. split; [set_solver|]. split; [discriminate|].
    left. split; [reflexivity|lia].
  - destruct (list_find (λ i, strict_eq (id i) (parseInt (params_id req))) l)
      as [[k it]|] eqn:Hfind.
    + rewrite (handle_put_item_Some _ _ _ _ Hfind); simpl.
      split; [by eexists|]. split; [set_solver|]. split; [discriminate|].
      left. split; [reflexivity|lia].
    + rewrite (handle_put_item_None _ _ Hfind); simpl.
      split; [by eexists|]. split; [set_solver|]. split; [discriminate|].
      right. by repeat split.
  - rewrite handle_delete_item; simpl.
    split; [by eexists|]. split; [set_solver|]. split; [discriminate|].
    left. split; [reflexivity|lia].
Qed.

(** ** Deleting from a store with the ids 1, ..., N, then creating *)

Lemma consecutive_NoDup (l : list Item) : consecutive l → NoDup (id <$> l).
Proof. intros ->. apply NoDup_seqZ. Qed.

Lemma consecutive_has_id (l : list Item) (k : Z) :
  consecutive l → 1 ≤ k ≤ Z.of_nat (length l) → ∃ it, it ∈ l ∧ id it = k.
Proof.
  intros Hl Hk.
  assert (k ∈ id <$> l) as Hin by (rewrite Hl; apply elem_of_seqZ; lia).
  apply list_elem_of_fmap in Hin as (it & -> & Hin). by exists it.
Qed.

(** With distinct ids, filtering out the id of a stored item drops one
    item. *)
Lemma filter_ne_drops_one (l : list Item) (it : Item) :
  NoDup (id <$> l) → it ∈ l →
  (length (filter (λ i, strict_ne (id i) (Num (id it))) l) + 1)%nat = length l.
Proof.
  intros Hnd Hin.
  pose proof (filter_ne_length l (Num (id it))) as Hlen.
  by rewrite (filter_eq_singleton l it Hnd Hin) in Hlen.
Qed.

(** X14.  On a store of [N] items with the ids 1, ..., N, deleting any id
    but the last and then creating an item hands out the id [N] again,
    while the item that has the id [N] is still stored: the store ends up
    with two items of id [N]. *)
Theorem delete_then_post_reissues_id
    (l : list Item) (req1 req2 : Request) (k : Z) :
  consecutive l →
  parseInt (params_id req1) = Num k →
  1 ≤ k < Z.of_nat (length l) →
  last (store (handle post_items req2 (store (handle delete_item req1 l))))
    = Some {| id := Z.of_nat (length l); name := body_name req2 |} ∧
  (∃ it, it ∈ store (handle delete_item req1 l) ∧ id it = Z.of_nat (length l)) ∧
  ¬ NoDup (id <$> store (handle post_items req2
                           (store (handle delete_item req1 l)))).
Proof.
  intros Hl Hparse Hk.
  pose proof (consecutive_NoDup l Hl) as Hnd.
  destruct (consecutive_has_id l k Hl) as (itk & Hink & Hidk); [lia|].
  destruct (consecutive_has_id l (Z.of_nat (length l)) Hl)
    as (itN & HinN & HidN); [lia|].
  rewrite handle_delete_item; cbn [store]. rewrite Hparse, <- Hidk.
  pose proof (filter_ne_drops_one l itk Hnd Hink) as Hlen.
  assert (itN ∈ filter (λ i, strict_ne (id i) (Num (id itk))) l) as HinN'.
  { apply list_elem_of_filter. split; [|done].
    apply strict_ne_spec. intros [= Heq]. lia. }
  rewrite handle_post_items; cbn [store].
  replace (Z.of_nat (length (filter (λ i, strict_ne (id i) (Num (id itk))) l)) + 1)
    with (Z.of_nat (length l)) by lia.
  split; [apply last_snoc|]. split; [by exists itN|].
  rewrite fmap_app. intros (_ & Hdisj & _)%NoDup_app.
  apply (Hdisj (Z.of_nat (length l))).
  - rewrite <- HidN. by apply list_elem_of_fmap_2.
  - simpl. apply list_elem_of_singleton. reflexivity.
Qed.

Lemma delete_then_post_reissues_id_witness :
  last (store (handle post_items (Create (JStr "C")).2
                 (store (handle delete_item (Delete "1").2 items_AB))))
    = Some {| id := Z.of_nat (length items_AB);
              name := body_name (Create (JStr "C")).2 |} ∧
  (∃ it, it ∈ store (handle delete_item (Delete "1").2 items_AB) ∧
         id it = Z.of_nat (length items_AB)) ∧
  ¬ NoDup (id <$> store (handle post_items (Create (JStr "C")).2
                           (store (handle delete_item (Delete "1").2 items_AB)))).
Proof.
  apply (delete_then_post_reissues_id items_AB
           (Delete "1").2 (Create (JStr "C")).2 1).
  - reflexivity.
  - reflexivity.
  - simpl. lia.
Defined.

(** X15.  On a non-empty store with the ids 1, ..., N, deleting the last
    id and then creating an item is harmless: the new item gets the id
    [N] and the ids are 1, ..., N again. *)
Theorem delete_last_then_post_keeps_ids
    (l : list Item) (req1 req2 : Request) :
  consecutive l →
  l ≠ [] →
  parseInt (params_id req1) = Num (Z.of_nat (length l)) →
  id <$> store (handle post_items req2 (store (handle delete_item req1 l)))
    = id <$> l ∧
  consecutive (store (handle post_items req2 (store (handle delete_item req1 l)))).
Proof.
  intros Hl Hne Hparse.
  destruct l as [|x l0 _] using rev_ind; [done|]. clear Hne.
  unfold consecutive in Hl.
  rewrite length_app in Hl, Hparse. simpl in Hl, Hparse.
  rewrite Nat.add_1_r in Hl, Hparse.
  rewrite fmap_app, seqZ_S in Hl. simpl in Hl.
  apply app_inj_tail in Hl as [Hl0 Hx].
  rewrite handle_delete_item; cbn [store]. rewrite Hparse.
  rewrite filter_app, filter_ne_absent, filter_cons_False, filter_nil, app_nil_r.
  - rewrite handle_post_items; cbn [store].
    assert (id <$> l0 ++ [ {| id := Z.of_nat (length l0) + 1; name := body_name req2 |} ]
            = id <$> l0 ++ [x]) as Hids.
    { rewrite !fmap_app. simpl. rewrite Hx. do 2 f_equal. lia. }
    split; [exact Hids|].
    unfold consecutive. rewrite Hids, !length_app. simpl.
    rewrite Nat.add_1_r, seqZ_S, fmap_app, Hl0. simpl. by rewrite Hx.
  - rewrite strict_ne_spec. intros Hn. apply Hn. f_equal. lia.
  - intros it Hin [= Hid].
    apply (list_elem_of_fmap_2 id) in Hin. rewrite Hl0 in Hin.
    apply elem_of_seqZ in Hin. lia.
Qed.

Lemma delete_last_then_post_keeps_ids_witness :
  id <$> store (handle post_items (Create (JStr "C")).2
                  (store (handle delete_item (Delete "2").2 items_AB)))
    = id <$> items_AB ∧
  consecutive (store (handle post_items (Create (JStr "C")).2
                        (store (handle delete_item (Delete "2").2 items_AB)))).
Proof.
  apply (delete_last_then_post_keeps_ids items_AB
           (Delete "2").2 (Create (JStr "C")).2).
  - reflexivity.
  - discriminate.
  - reflexivity.
Defined.

(** ** What [parseInt] makes of a path segment *)

Lemma digit_value_pretty_N_char (d : N) :
  (d < 10)%N → digit_value 10 (pretty_N_char d) = Some (Z.of_N d).
Proof.
  intros Hd.
  assert (d = 0 ∨ d = 1 ∨ d = 2 ∨ d = 3 ∨ d = 4 ∨ d = 5 ∨ d = 6 ∨ d = 7
          ∨ d = 8 ∨ d = 9)%N as Hcases by lia.
  repeat (destruct Hcases as [->|Hcases]; [reflexivity|]).
  by subst.
Qed.

(** Reading back the digits that the printer puts in front of [s]. *)
Lemma digits_pretty_N_go (x : N) (s : string) :
  (0 < x)%N →
  digits 10 None (pretty_N_go x s) = digits 10 (Some (Z.of_N x)) s.
Proof.
  revert s. induction (N.lt_wf_0 x) as [x _ IH]; intros s Hx.
  rewrite pretty_N_go_step by done.
  assert (x `mod` 10 < 10)%N as Hmod by (apply N.mod_lt; lia).
  pose proof (N.div_mod x 10 ltac:(lia)) as Hdiv.
  destruct (decide (x `div` 10 = 0)%N) as [Hz|Hnz].
  - rewrite Hz, pretty_N_go_0. simpl.
    rewrite (digit_value_pretty_N_char _ Hmod). simpl. do 2 f_equal. lia.
  - rewrite IH; [|apply N.div_lt; lia | by apply N.neq_0_lt_0]. simpl.
    rewrite (digit_value_pretty_N_char _ Hmod). simpl. do 2 f_equal. lia.
Qed.

(** The printer starts a positive number with a digit from 1 to 9. *)
Lemma pretty_N_go_head (x : N) (s : string) :
  (0 < x)%N →
  ∃ (d : N) (s' : string),
    (1 ≤ d ≤ 9)%N ∧ pretty_N_go x s = String (pretty_N_char d) s'.
Proof.
  revert s. induction (N.lt_wf_0 x) as [x _ IH]; intros s Hx.
  rewrite pretty_N_go_step by done.
  destruct (decide (x `div` 10 = 0)%N) as [Hz|Hnz].
  - rewrite Hz, pretty_N_go_0. exists (x `mod` 10)%N, s. split; [|done].
    pose proof (N.div_mod x 10 ltac:(lia)).
    pose proof (N.mod_lt x 10 ltac:(lia)). lia.
  - apply IH; [apply N.div_lt; lia | by apply N.neq_0_lt_0].
Qed.

(** A string that starts with a digit from 1 to 9, with or without a minus
    sign in front: [parseInt] reads its decimal digits. *)
Lemma parseInt_digit_head (d : N) (s : string) :
  (1 ≤ d ≤ 9)%N →
  parseInt (String (pretty_N_char d) s)
  = match digits 10 None (String (pretty_N_char d) s) with
    | None => NaN
    | Some n => Num (1 * n)
    end ∧
  parseInt (String "-" (String (pretty_N_char d) s))
  = match digits 10 None (String (pretty_N_char d) s) with
    | None => NaN
    | Some n => Num (-1 * n)
    end.
Proof.
  intros Hd.
  assert (d = 1 ∨ d = 2 ∨ d = 3 ∨ d = 4 ∨ d = 5 ∨ d = 6 ∨ d = 7
          ∨ d = 8 ∨ d = 9)%N as Hcases by lia.
  repeat (destruct Hcases as [->|Hcases]; [by split|]).
  by subst.
Qed.

(** The printer and [parseInt] are inverse on the integers that a
    JavaScript number holds exactly, those from [-2^53] to [2^53]; beyond
    them [parseInt] rounds. *)
Lemma parseInt_pretty (z : Z) :
  - 2 ^ 53 ≤ z ≤ 2 ^ 53 → parseInt (pretty z) = Num z.
Proof.
  intros _.
  destruct z as [|p|p]; [reflexivity| |].
  - change (pretty (Z.pos p)) with (pretty_N_go (N.pos p) "").
    pose proof (digits_pretty_N_go (N.pos p) "" ltac:(lia)) as Hdigits.
    destruct (pretty_N_go_head (N.pos p) "" ltac:(lia)) as (d & s & Hd & Hhead).
    rewrite Hhead in Hdigits |- *.
    rewrite (proj1 (parseInt_digit_head d s Hd)), Hdigits. simpl.
    reflexivity.
  - change (pretty (Z.neg p)) with (String "-" (pretty_N_go (N.pos p) "")).
    pose proof (digits_pretty_N_go (N.pos p) "" ltac:(lia)) as Hdigits.
    destruct (pretty_N_go_head (N.pos p) "" ltac:(lia)) as (d & s & Hd & Hhead).
    rewrite Hhead in Hdigits |- *.
    rewrite (proj2 (parseInt_digit_head d s Hd)), Hdigits. simpl.
    reflexivity.
Qed.

(** X16.  The decimal notation of an integer from [-2^53] to [2^53] (the
    integers that a JavaScript number holds exactly), as a path segment,
    is that integer for the handlers: [parseInt] reads back what the
    printer wrote.  So [DELETE] on the decimal notation of [z] leaves
    exactly the items whose id is not [z], and [PUT] on it looks for the
    first item whose id is [z]. *)
Theorem parseInt_decimal (z : Z) (l : list Item) (b : gmap string Value) :
  - 2 ^ 53 ≤ z ≤ 2 ^ 53 →
  parseInt (pretty z) = Num z ∧
  store (handle delete_item {| params_id := pretty z; body := b |} l)
    = filter (λ it, id it ≠ z) l ∧
  store (handle put_item {| params_id := pretty z; body := b |} l)
    = match list_find (λ it, id it = z) l with
      | Some (k, _) => alter (set_name (default JUndefined (b !! "name"%string))) k l
      | None => l
      end.
Proof.
  intros Hz.
  split; [by apply parseInt_pretty|]. split.
  - rewrite handle_delete_item; cbn [store params_id].
    rewrite parseInt_pretty by done. apply list_filter_iff. intros it.
    rewrite strict_ne_spec. split; intros H; congruence.
  - rewrite put_item_store; cbn [params_id]. rewrite parseInt_pretty by done.
    rewrite (list_find_ext _ (λ it, id it = z)); [reflexivity|].
    intros it. rewrite strict_eq_spec. split; intros H; congruence.
Qed.

(** [/items/2] on the two-item store. *)
Lemma parseInt_decimal_witness :
  parseInt (pretty 2) = Num 2 ∧
  store (handle delete_item
           {| params_id := pretty 2; body := {[ "name"%string := JStr "C" ]} |}
           items_AB)
    = filter (λ it, id it ≠ 2) items_AB ∧
  store (handle put_item
           {| params_id := pretty 2; body := {[ "name"%string := JStr "C" ]} |}
           items_AB)
    = match list_find (λ it, id it = 2) items_AB with
      | Some (k, _) =>
          alter (set_name (default JUndefined
                   (({[ "name"%string := JStr "C" ]} : gmap string Value)
                      !! "name"%string))) k items_AB
      | None => items_AB
      end.
Proof.
  apply (parseInt_decimal 2 items_AB {[ "name"%string := JStr "C" ]}).
  lia.
Defined.

(** A character that is neither a letter nor a digit is not a digit in any
    radix. *)
Lemma digit_value_not_alnum (c : ascii) (radix : Z) :
  digit_value 36 c = None → digit_value radix c = None.
Proof.
  unfold digit_value.
  destruct ((48 <=? Z.of_N (code c)) && (Z.of_N (code c) <=? 57)) eqn:E1;
    [|destruct ((97 <=? Z.of_N (code c)) && (Z.of_N (code c) <=? 122)) eqn:E2;
      [|destruct ((65 <=? Z.of_N (code c)) && (Z.of_N (code c) <=? 90)) eqn:E3;
        [|reflexivity]]];
    [apply andb_prop in E1 as [H1 H2] | apply andb_prop in E2 as [H1 H2]
     | apply andb_prop in E3 as [H1 H2]];
    apply Z.leb_le in H1, H2;
    (destruct (_ <? 36) eqn:E; [discriminate | apply Z.ltb_ge in E; lia]).
Qed.

(** Reading digits stops at the first character that is not one. *)
Lemma digits_app_stop (radix : Z) (acc : option Z) (s rest : string) (c : ascii) :
  digit_value radix c = None →
  digits radix acc (s +:+ String c rest) = digits radix acc s.
Proof.
  intros Hc. revert acc. induction s as [|a s IH]; intros acc; simpl.
  - by rewrite Hc.
  - destruct (digit_value radix a); [apply IH | reflexivity].
Qed.

Lemma trim_start_app (s t : string) :
  trim_start s ≠ EmptyString → trim_start (s +:+ t) = trim_start s +:+ t.
Proof.
  induction s as [|a s IH]; simpl; [done|].
  destruct (is_white_space a); [exact IH | reflexivity].
Qed.

Lemma strip_sign_app (s t : string) :
  s ≠ EmptyString →
  strip_sign (s +:+ t) = ((strip_sign s).1, (strip_sign s).2 +:+ t).
Proof.
  destruct s as [|a s]; [done|]. intros _.
  destruct a as [[] [] [] [] [] [] [] []]; reflexivity.
Qed.

Lemma strip_prefix_app (s rest : string) (c : ascii) :
  digit_value 36 c = None →
  strip_prefix (s +:+ String c rest)
  = ((strip_prefix s).1, (strip_prefix s).2 +:+ String c rest).
Proof.
  intros Hc. destruct s as [|a [|a' s]].
  - destruct c as [[] [] [] [] [] [] [] []]; try reflexivity; discriminate Hc.
  - destruct a as [[] [] [] [] [] [] [] []]; try reflexivity.
    destruct c as [[] [] [] [] [] [] [] []]; try reflexivity; discriminate Hc.
  - destruct a as [[] [] [] [] [] [] [] []]; try reflexivity.
    destruct a' as [[] [] [] [] [] [] [] []]; reflexivity.
Qed.

(** Whatever follows a number is ignored, provided it starts with a
    character that is neither a letter nor a digit. *)
Lemma parseInt_app (s rest : string) (c : ascii) :
  digit_value 36 c = None →
  parseInt s ≠ NaN →
  parseInt (s +:+ String c rest) = parseInt s.
Proof.
  intros Hc Hs. unfold parseInt in *.
  destruct (trim_start s) as [|a s1] eqn:Htrim; [done|].
  rewrite trim_start_app by (by rewrite Htrim). rewrite Htrim.
  rewrite strip_sign_app by done.
  destruct (strip_sign (String a s1)) as [sign s2]. cbn [fst snd].
  rewrite strip_prefix_app by done.
  destruct (strip_prefix s2) as [radix s3]. cbn [fst snd].
  by rewrite digits_app_stop by (by apply digit_value_not_alnum).
Qed.

(** X17.  [PUT] and [DELETE] read the longest number at the front of the
    path segment and ignore the rest: when a segment parses as a number,
    appending anything that starts with a character that is neither a
    letter nor a digit changes nothing in what the handlers do. *)
Theorem trailing_text_is_ignored
    (s rest : string) (c : ascii) (n : Z)
    (l : list Item) (b : gmap string Value) :
  parseInt s = Num n →
  digit_value 36 c = None →
  handle put_item {| params_id := s +:+ String c rest; body := b |} l
    = handle put_item {| params_id := s; body := b |} l ∧
  handle delete_item {| params_id := s +:+ String c rest; body := b |} l
    = handle delete_item {| params_id := s; body := b |} l.
Proof.
  intros Hs Hc.
  assert (parseInt (s +:+ String c rest) = parseInt s) as Happ.
  { apply parseInt_app; [done|]. by rewrite Hs. }
  split.
  - unfold handle, put_item; cbn [params_id]. by rewrite Happ.
  - unfold handle, delete_item; cbn [params_id]. by rewrite Happ.
Qed.

(** [/items/2.5] is [/items/2]. *)
Lemma trailing_text_is_ignored_witness :
  handle put_item {| params_id := "2.5"; body := {[ "name"%string := JStr "C" ]} |} items_AB
    = handle put_item {| params_id := "2"; body := {[ "name"%string := JStr "C" ]} |} items_AB ∧
  handle delete_item {| params_id := "2.5"; body := {[ "name"%string := JStr "C" ]} |} items_AB
    = handle delete_item {| params_id := "2"; body := {[ "name"%string := JStr "C" ]} |} items_AB.
Proof.
  apply (trailing_text_is_ignored "2" "5" "."%char 2 items_AB
           {[ "name"%string := JStr "C" ]}).
  - reflexivity.
  - reflexivity.
Defined.

(** ** Ids as long as nothing is deleted *)

Lemma length_run_no_delete trace (l : list Item) :
  Forall (λ rq : Route * Request, rq.1 ≠ DELETE_item) trace →
  length (run trace l) = (length l + count_posts trace)%nat.
Proof.
  intros Htrace. revert l.
  induction Htrace as [|[r req] trace Hr _ IH]; intros l.
  { unfold count_posts; simpl. lia. }
  change (run ((r, req) :: trace) l) with (run trace (step l (r, req))).
  rewrite IH, count_posts_cons. cbn [fst] in *.
  destruct r; unfold step; cbn [fst snd handler].
  - rewrite decide_False by discriminate. reflexivity.
  - rewrite decide_True by reflexivity.
    rewrite handle_post_items; cbn [store]. rewrite length_app. simpl. lia.
  - rewrite decide_False by discriminate.
    by rewrite <- (length_fmap id), put_item_ids, length_fmap.
  - done.
Qed.

(** X18.  As long as no [DELETE] is served, the ids of the stored items
    are exactly 1, 2, ..., N in store order, hence pairwise distinct, and
    N is one plus the number of [POST /items] requests served. *)
Theorem ids_consecutive_without_delete (trace : list (Route * Request)) :
  Forall (λ rq : Route * Request, rq.1 ≠ DELETE_item) trace →
  id <$> run trace initial_items
    = seqZ 1 (Z.of_nat (length (run trace initial_items))) ∧
  length (run trace initial_items) = (1 + count_posts trace)%nat ∧
  NoDup (id <$> run trace initial_items).
Proof.
  intros Htrace.
  pose proof (consecutive_run trace initial_items Htrace eq_refl) as Hcons.
  split; [exact Hcons|]. split.
  - by rewrite length_run_no_delete.
  - by apply consecutive_NoDup.
Qed.

Lemma ids_consecutive_without_delete_witness :
  id <$> run [Create (JStr "a"); Update "1" (JStr "b"); List_; Create JNull]
           initial_items
    = seqZ 1 (Z.of_nat (length
        (run [Create (JStr "a"); Update "1" (JStr "b"); List_; Create JNull]
           initial_items))) ∧
  length (run [Create (JStr "a"); Update "1" (JStr "b"); List_; Create JNull]
            initial_items)
    = (1 + count_posts
             [Create (JStr "a"); Update "1" (JStr "b"); List_; Create JNull])%nat ∧
  NoDup (id <$> run [Create (JStr "a"); Update "1" (JStr "b"); List_; Create JNull]
                  initial_items).
Proof.
  apply (ids_consecutive_without_delete
           [Create (JStr "a"); Update "1" (JStr "b"); List_; Create JNull]).
  refine (bool_decide_unpack _ _); vm_compute; exact I.
Defined.

(** ** Items that share an id *)

(** X21.  When two stored items have the same id, no request can tell them
    apart.  A [PUT] never renames the later one: it stays at its position
    as it is, whatever the request.  A [DELETE] removes both or neither. *)
Theorem items_sharing_an_id
    (l : list Item) (j k : nat) (it1 it2 : Item) (req : Request) :
  (j < k)%nat →
  l !! j = Some it1 →
  l !! k = Some it2 →
  id it1 = id it2 →
  store (handle put_item req l) !! k = Some it2 ∧
  (it1 ∈ store (handle delete_item req l)
   ↔ it2 ∈ store (handle delete_item req l)).
Proof.
  intros Hjk Hj Hk Hid. split.
  - rewrite put_item_store.
    destruct (list_find (λ i, strict_eq (id i) (parseInt (params_id req))) l)
      as [[k0 it0]|] eqn:Hfind; [|exact Hk].
    apply list_find_Some in Hfind as (Hk0 & Hmatch & Hfirst).
    rewrite list_lookup_alter_ne; [exact Hk|].
    intros ->. apply (Hfirst j it1 Hj Hjk).
    rewrite Hk in Hk0. injection Hk0 as <-. by rewrite Hid.
  - rewrite handle_delete_item; cbn [store].
    rewrite !list_elem_of_filter, Hid.
    split; intros [Hne _]; (split; [exact Hne|]);
      apply list_elem_of_lookup; eauto.
Qed.

Lemma items_sharing_an_id_witness :
  store (handle put_item (Update "2" (JStr "c")).2
           [ {| id := 2; name := JStr "a" |}; {| id := 2; name := JStr "b" |} ]) !! 1%nat
    = Some {| id := 2; name := JStr "b" |} ∧
  ({| id := 2; name := JStr "a" |}
     ∈ store (handle delete_item (Update "2" (JStr "c")).2
                [ {| id := 2; name := JStr "a" |}; {| id := 2; name := JStr "b" |} ])
   ↔ {| id := 2; name := JStr "b" |}
     ∈ store (handle delete_item (Update "2" (JStr "c")).2
                [ {| id := 2; name := JStr "a" |}; {| id := 2; name := JStr "b" |} ])).
Proof.
  apply (items_sharing_an_id
           [ {| id := 2; name := JStr "a" |}; {| id := 2; name := JStr "b" |} ]
           0 1 {| id := 2; name := JStr "a" |} {| id := 2; name := JStr "b" |}
           (Update "2" (JStr "c")).2).
  - lia.
  - reflexivity.
  - reflexivity.
  - reflexivity.
Defined.

(** ** [readFile] and [GET /get-file] *)

Import Pages.

(** [GET /] on a fresh response. *)
Example get_root_fresh :
  get_root fresh_page =
    (POk tt,
     {| page_res := {| statusCode := 200; sent := Some (Text "Hello World") |};
        headers := [("Content-Type", "text/plain")];
        console := [] |}).
Proof. reflexivity. Qed.

(** X19.  On a response that has not been sent, [readFile] never rejects
    and sends exactly one response.  When the read succeeds it sets the
    content type to [text/html] and sends the contents of the file as they
    are, leaving the status code and the console alone; when the read is
    rejected it sets no header, writes one line to the console and sends
    500 [Failed to load file]. *)
Theorem readFile_answers_once
    (fs : string → option string) (filepath : string) (w : Page) :
  sent (page_res w) = None →
  (readFile fs filepath w).1 = POk tt ∧
  match fs filepath with
  | Some data =>
      (readFile fs filepath w).2 =
        {| page_res := {| statusCode := statusCode (page_res w);
                          sent := Some (Text data) |};
           headers := headers w ++ [("Content-Type", "text/html")];
           console := console w |}
  | None =>
      (readFile fs filepath w).2 =
        {| page_res := {| statusCode := 500;
                          sent := Some (Text "Failed to load file") |};
           headers := headers w;
           console := console w ++ ["Error reading file:"] |}
  end.
Proof.
  intros Hsent.
  unfold readFile, try_catch, fs_readFile, mbind, P_bind.
  destruct (fs filepath) as [data|]; simpl.
  - unfold set_header, send. rewrite Hsent. simpl. rewrite Hsent. by split.
  - unfold send; simpl. rewrite Hsent. by split.
Qed.

Lemma readFile_answers_once_witness :
  (readFile (λ _, None) "./example.txt" fresh_page).1 = POk tt ∧
  (readFile (λ _, None) "./example.txt" fresh_page).2 =
    {| page_res := {| statusCode := 500;
                      sent := Some (Text "Failed to load file") |};
       headers := [];
       console := ["Error reading file:"] |}.
Proof.
  apply (readFile_answers_once (λ _, None) "./example.txt" fresh_page).
  reflexivity.
Defined.

(** X20.  The [catch] block of [readFile] also catches what the response
    calls throw.  On a response that has already been sent, [readFile]
    rejects with the headers-sent error whether the read succeeds or not:
    the body that was sent and the headers stay as they were, and the
    console gets the line [Error reading file:] even when the file was
    read. *)
Theorem readFile_after_send
    (fs : string → option string) (filepath : string) (w : Page) (p : Payload) :
  sent (page_res w) = Some p →
  (readFile fs filepath w).1 = PThrow (Js ErrHttpHeadersSent) ∧
  sent (page_res (readFile fs filepath w).2) = Some p ∧
  headers (readFile fs filepath w).2 = headers w ∧
  console (readFile fs filepath w).2 = console w ++ ["Error reading file:"].
Proof.
  intros Hsent.
  unfold readFile, try_catch, fs_readFile, mbind, P_bind.
  destruct (fs filepath) as [data|]; simpl.
  - unfold set_header, send. rewrite Hsent. simpl. rewrite Hsent. by repeat split.
  - unfold send; simpl. rewrite Hsent. by repeat split.
Qed.

Lemma readFile_after_send_witness :
  (readFile (λ _, Some "<p>hi</p>") "./example.txt" (get_root fresh_page).2).1
    = PThrow (Js ErrHttpHeadersSent) ∧
  sent (page_res (readFile (λ _, Some "<p>hi</p>") "./example.txt"
                    (get_root fresh_page).2).2)
    = Some (Text "Hello World") ∧
  headers (readFile (λ _, Some "<p>hi</p>") "./example.txt"
             (get_root fresh_page).2).2
    = headers (get_root fresh_page).2 ∧
  console (readFile (λ _, Some "<p>hi</p>") "./example.txt"
             (get_root fresh_page).2).2
    = console (get_root fresh_page).2 ++ ["Error reading file:"].
Proof.
  apply (readFile_after_send (λ _, Some "<p>hi</p>") "./example.txt"
           (get_root fresh_page).2 (Text "Hello World")).
  reflexivity.
Defined.
